(** * How to Embed words in TensorFlow: the notebook's preprocessing and lookups

    A shallow embedding of [notebook.ipynb].

    - Text is a Python [str] whose code points lie in U+0000..U+00FF; a
      character is Rocq's [ascii], read as its code point.
    - [np.unique] works on NumPy's array of the tokens: strings in cells of
      one width, read back without the U+0000 characters they end with; it
      sorts the array and keeps every element that differs from its
      predecessor.
    - The TensorFlow calls are taken in graph mode, after the variables'
      initializers have run, on the device the session places them on.
      Integers that reach the framework are Python integers: one that does
      not fit 64 bits is refused while the graph is built. Memory is not
      bounded.
    - The dict [vocab] is a [gmap string nat].
    - A rank-2 float tensor is a list of rows with its width and device;
      its entries are exact rationals (every finite float is one).
    - A Python exception is the [Raise] branch of the [result] type. *)

From Stdlib Require Import Ascii String QArith.
From stdpp Require Import gmap strings list fin_maps sorting.

Local Open Scope string_scope.
Local Open Scope list_scope.
Local Open Scope nat_scope.

(** ** Cell 4: tokenizing *)

Module Tokenizer.

(** The character class [[,?.]] of the regular expression. *)
Definition punctuation (c : ascii) : bool :=
  (c =? ",")%char || (c =? "?")%char || (c =? ".")%char.

(** [re.sub(cls, '', text)] for a one-character class: every match is
    replaced by the empty string. *)
Fixpoint re_sub_empty (cls : ascii → bool) (text : string) : string :=
  match text with
  | EmptyString => EmptyString
  | String c rest =>
      if cls c then re_sub_empty cls rest
      else String c (re_sub_empty cls rest)
  end.

(** [str.lower] on one code point below U+0100: A..Z, and the capitals
    U+00C0..U+00DE except the multiplication sign U+00D7, move up by 32. *)
Definition lower_char (c : ascii) : ascii :=
  let n := N_of_ascii c in
  if ((65 <=? n) && (n <=? 90))%N
     || ((192 <=? n) && (n <=? 222) && negb (n =? 215))%N
  then ascii_of_N (n + 32)
  else c.

Fixpoint lower (s : string) : string :=
  match s with
  | EmptyString => EmptyString
  | String c rest => String (lower_char c) (lower rest)
  end.

(** [s.split(sep)] for a separator of one character: the pieces between
    consecutive separators, empty pieces included; the empty string splits
    into one empty piece. *)
Fixpoint split (sep : ascii) (s : string) : list string :=
  match s with
  | EmptyString => [EmptyString]
  | String c rest =>
      if (c =? sep)%char then EmptyString :: split sep rest
      else match split sep rest with
           | [] => [String c EmptyString]
           | piece :: pieces => String c piece :: pieces
           end
  end.

(** [tokenized = re.sub('[,?.]','', text).lower().split(' ')] *)
Definition tokenized (text : string) : list string :=
  split " " (lower (re_sub_empty punctuation text)).

(** [sep.join(pieces)] *)
Fixpoint join (sep : ascii) (pieces : list string) : string :=
  match pieces with
  | [] => EmptyString
  | [p] => p
  | p :: ps => p +:+ String sep (join sep ps)
  end.

(** A run of [k] spaces. *)
Fixpoint spaces (k : nat) : string :=
  match k with
  | O => EmptyString
  | S k' => String " " (spaces k')
  end.

(** The number of empty tokens in a token sequence. *)
Definition empty_tokens (tokens : list string) : nat :=
  length (filter (λ t, t = EmptyString) tokens).

(** The characters of a string, as a list. *)
Definition chars (s : string) : list ascii := list_ascii_of_string s.

End Tokenizer.

(** ** Cell 4: the vocabulary *)

Module Vocabulary.

(** U+0000, with which NumPy pads the cells of an array of strings. *)
Definition NUL : ascii := "000"%char.

(** What NumPy reads back from a cell that holds [s]: the string without
    the U+0000 characters it ends with. *)
Fixpoint rstrip_nul (s : string) : string :=
  match s with
  | EmptyString => EmptyString
  | String c rest =>
      match rstrip_nul rest with
      | EmptyString =>
          if (c =? NUL)%char then EmptyString else String c EmptyString
      | kept => String c kept
      end
  end.

(** The elements of [np.asanyarray(l)] for a list of strings. The padded
    cells compare as the strings read back from them do. *)
Definition np_array (l : list string) : list string := rstrip_nul <$> l.

(** Keep the elements of a sorted array that differ from their predecessor
    ([mask[1:] = aux[1:] != aux[:-1]]). *)
Fixpoint drop_repeats (prev : string) (l : list string) : list string :=
  match l with
  | [] => []
  | x :: l' =>
      if decide (x = prev) then drop_repeats prev l'
      else x :: drop_repeats x l'
  end.

Definition uniq (l : list string) : list string :=
  match l with
  | [] => []
  | x :: l' => x :: drop_repeats x l'
  end.

(** [np.unique(ar)]: the sorted unique elements of the array made of [ar].
    Strings compare by code point, lexicographically ([String.le] is
    [String.leb]). *)
Definition np_unique (ar : list string) : list string :=
  uniq (merge_sort String.le (np_array ar)).

(** [enumerate(l)] *)
Definition enumerate {A} (l : list A) : list (nat * A) := imap pair l.

(** [{k:v for v,k in items}]: the keys are inserted from left to right, a
    later pair replacing an earlier one with the same key. *)
Definition dict_of (items : list (nat * string)) : gmap string nat :=
  foldl (λ d '(v, k), <[k := v]> d) ∅ items.

(** [vocab = {k:v for v,k in enumerate(np.unique(tokenized))}] *)
Definition vocab (tokenized : list string) : gmap string nat :=
  dict_of (enumerate (np_unique tokenized)).

(** [VOCAB_LEN = len(vocab.keys())] *)
Definition VOCAB_LEN (tokenized : list string) : nat := size (vocab tokenized).

(** Strictly before, in the order [np.unique] sorts by. *)
Definition before (s1 s2 : string) : Prop := String.ltb s1 s2 = true.

End Vocabulary.

(** ** The framework operations the notebook calls *)

Module TF.

(** The Python exceptions the calls below can raise: [TypeError] and
    [ValueError] while the graph is built, [tf.errors.InvalidArgumentError]
    from a kernel while the session runs. *)
Inductive exception : Set :=
  | ValueError
  | InvalidArgumentError
  | TypeError.

Inductive result (A : Type) : Type :=
  | Return (a : A)
  | Raise (e : exception).
Arguments Return {A} a.
Arguments Raise {A} e.

(** Sequencing: an exception raised by [r] ends the computation. The
    instances give [x ← r; k] its meaning for [result]. *)
Definition bind {A B} (k : A → result B) (r : result A) : result B :=
  match r with
  | Return a => k a
  | Raise e => Raise e
  end.

#[global] Instance result_ret : MRet result := @Return.
#[global] Instance result_bind : MBind result := @bind.

(** Where the session places a variable and the operations on it. *)
Inductive device : Set :=
  | CPU
  | GPU.

(** What a run adds to the code of the notebook: the device, and the
    32-bit words that the generator of [tf.random_uniform] yields
    ([generator k] is the k-th). *)
Record session : Type := {
  placed_on : device;
  generator : nat → Z
}.

(** A rank-2 float tensor: its device, its width and its rows. *)
Record tensor : Type := {
  on : device;
  n_cols : nat;
  rows : list (list Q)
}.

(** Whether a Python integer fits a 64-bit tensor element: at least -2^63
    and below 2^63. *)
Definition int64 (z : Z) : bool :=
  ((-9223372036854775808 <=? z) && (z <? 9223372036854775808))%Z.

(** The float the kernel makes of a generator word: the low 23 bits are the
    mantissa of a float from 1 up to 2, and 1 is subtracted. *)
Definition uniform_float (word : Z) : Q := Z.land word (Z.ones 23) # 8388608.

(** [tf.random_uniform([n_rows, n_cols])] with the default bounds 0 and 1: a
    tensor of that shape filled, in row-major order, with the floats of the
    generator's successive words. A dimension that does not fit 64 bits is
    refused with [TypeError], one below -1 with [ValueError] by the op's
    shape function. A dimension of -1 stands for one that is not known:
    the tensor is made, but it has no fully defined shape, and no value
    here ([None]). A dimension of 0 is accepted and gives a tensor without
    entries. *)
Definition random_uniform (sess : session) (n_rows n_cols : Z)
    : result (option tensor) :=
  if negb (int64 n_rows && int64 n_cols) then Raise TypeError
  else if ((n_rows <? -1) || (n_cols <? -1))%Z then Raise ValueError
  else if ((n_rows <? 0) || (n_cols <? 0))%Z then Return None
  else
    let r := Z.to_nat n_rows in
    let c := Z.to_nat n_cols in
    Return (Some
      {| on := placed_on sess;
         n_cols := c;
         rows := (λ i, (λ j, uniform_float (generator sess (i * c + j)))
                         <$> seq 0 c) <$> seq 0 r |}).

(** [tf.Variable(initial_value)], read after
    [sess.run(tf.global_variables_initializer())]. An initial value
    without a fully defined shape is refused with [ValueError]. *)
Definition tf_Variable (initial_value : option tensor) : result tensor :=
  match initial_value with
  | Some value => Return value
  | None => Raise ValueError
  end.

(** The gather kernel for one index: the row of [params] at [id]. For an
    index that is not in the range of the first dimension, the CPU kernel
    fails and the GPU kernel stores zeros. *)
Definition gather_row (params : tensor) (id : Z) : result (list Q) :=
  let found :=
    if ((0 <=? id) && (id <? Z.of_nat (length (rows params))))%Z
    then rows params !! Z.to_nat id
    else None in
  match found with
  | Some r => Return r
  | None =>
      match on params with
      | CPU => Raise InvalidArgumentError
      | GPU => Return (replicate (n_cols params) 0%Q)
      end
  end.

Fixpoint gather (params : tensor) (ids : list Z) : result (list (list Q)) :=
  match ids with
  | [] => Return []
  | id :: ids' =>
      r ← gather_row params id;
      rs ← gather params ids';
      mret (r :: rs)
  end.

(** The slice that [tf.nn.embedding_lookup] gives for one id. An id that
    does not fit 64 bits makes no index tensor: it is refused while the
    graph is built. *)
Definition row (params : tensor) (id : Z) : result (list Q) :=
  if int64 id then gather_row params id else Raise TypeError.

(** [tf.nn.embedding_lookup(params, ids)] for a vector of integer ids: the
    gathered slices, stacked in the order of [ids], on the device of
    [params]. *)
Definition embedding_lookup (params : tensor) (ids : list Z) : result tensor :=
  if forallb int64 ids then
    rs ← gather params ids;
    mret {| on := on params; n_cols := n_cols params; rows := rs |}
  else Raise TypeError.

(** A session for the examples: the k-th word of the generator is
    1000003 * k. *)
Definition example_session (dev : device) : session :=
  {| placed_on := dev; generator := λ k, (1000003 * Z.of_nat k)%Z |}.

End TF.

(** ** Cell 19: the class [Embedding] *)

Module Embedding.
Import TF.

(** The attributes [__init__] sets on [self]. *)
Record t : Type := {
  vocab_size : Z;
  emd_dim : Z;
  embeddings : tensor
}.

(** [Embedding.__init__(self, vocab_size, emd_dim=50)], called with both
    arguments, as cell 20 does. *)
Definition __init__ (sess : session) (vocab_size emd_dim : Z) : result t :=
  initial_value ← random_uniform sess vocab_size emd_dim;
  variable ← tf_Variable initial_value;
  mret {| vocab_size := vocab_size;
          emd_dim := emd_dim;
          embeddings := variable |}.

(** [Embedding.__call__(self, words_id)]: the body reads [words_ids], which
    is not the parameter but the module-level name. *)
Definition __call__ (global_words_ids : list Z) (self : t)
    (words_id : list Z) : result tensor :=
  embedding_lookup (embeddings self) global_words_ids.

End Embedding.

(** ** Cells 10 to 20: the module-level names *)

Module Notebook.
Import TF.

(** What the name [embeddings] is bound to in turn: the variable of cell 13,
    then the Keras layer of cell 15. [weights] are the values the layer's
    variable holds in the session that runs the cell at hand. *)
Inductive object : Type :=
  | VariableObject (value : tensor)
  | KerasEmbedding (weights : tensor).

(** [obj(ids)]: a Keras embedding layer looks its inputs up in its weights;
    a variable is not callable. *)
Definition call (obj : object) (ids : list Z) : result tensor :=
  match obj with
  | KerasEmbedding weights => embedding_lookup weights ids
  | VariableObject _ => Raise TypeError
  end.

Record globals : Type := {
  words_ids : list Z;
  embeddings : object;
  embedding : option Embedding.t;
  embed : option tensor
}.

(** Cell 20 with the constructor's arguments left open:
    [embedding = Embedding(vocab_size, emd_dim)]
    [embed = embeddings(words_ids)]
    and, in a session, [print(sess.run(embed))]. The result is the new
    bindings together with what is printed. *)
Definition cell_20 (sess : session) (vocab_size emd_dim : Z) (g : globals)
    : result (globals * tensor) :=
  instance ← Embedding.__init__ sess vocab_size emd_dim;
  out ← call (embeddings g) (words_ids g);
  mret ({| words_ids := words_ids g;
           embeddings := embeddings g;
           embedding := Some instance;
           embed := Some out |}, out).

(** What cell 20 prints, if it gets that far. *)
Definition printed (r : result (globals * tensor)) : result tensor :=
  p ← r; mret p.2.

(** The bindings the examples run cell 20 in: two ids and a Keras layer
    with two rows. *)
Definition example_globals : globals :=
  {| words_ids := [0; 1]%Z;
     embeddings := KerasEmbedding
       {| on := CPU; n_cols := 1; rows := [[1 # 2]; [1 # 4]]%Q |};
     embedding := None;
     embed := None |}.

End Notebook.

(** ** Cells 8 to 13: from two words to their rows *)

Module Cells.
Import TF.


(** [s.count(c)] for one character. *)
Definition count (c : ascii) (s : string) : nat :=
  length (filter (λ x, x = c) (Tokenizer.chars s)).

(** What a subscription [d[key]] comes to: the item, or the [KeyError] that
    carries the key. *)
Inductive subscript (A : Type) : Type :=
  | Item (a : A)
  | KeyError (key : string).
Arguments Item {A} a.
Arguments KeyError {A} key.

(** [d[key]] on a dict. *)
Definition getitem (d : gmap string nat) (key : string) : subscript nat :=
  match d !! key with
  | Some v => Item v
  | None => KeyError key
  end.



(** Whether one string sorts before another can be decided, so the tokens
    before a given one can be counted. *)
#[export] Instance before_dec : RelDecision Vocabulary.before.
Proof. intros s1 s2. unfold Vocabulary.before. apply _. Defined.

End Cells.

(** * Properties *)

(** ** The tokenizer *)

Module TokenizerFacts.
Import Tokenizer.

Lemma split_nonempty sep s : split sep s ≠ [].
Proof.
  destruct s as [|c s]; simpl; [done|].
  destruct (c =? sep)%char; [done|].
  by destruct (split sep s).
Qed.

Lemma split_app_sep sep a b :
  split sep (a +:+ String sep b) = split sep a ++ split sep b.
Proof.
  induction a as [|c a IH]; simpl.
  - by rewrite Ascii.eqb_refl.
  - rewrite IH. destruct (c =? sep)%char; [done|].
    pose proof (split_nonempty sep a) as Hne.
    by destruct (split sep a).
Qed.

Lemma split_spaces_app k v :
  split " " (spaces k +:+ v) = replicate k EmptyString ++ split " " v.
Proof. induction k as [|k IH]; simpl; [done|]. by rewrite IH. Qed.

Lemma join_split sep s : join sep (split sep s) = s.
Proof.
  induction s as [|c s IH]; simpl; [done|].
  destruct (Ascii.eqb_spec c sep) as [->|Hne].
  - pose proof (split_nonempty sep s) as Hs.
    destruct (split sep s) as [|p ps] eqn:E; [done|].
    simpl. by rewrite <- IH.
  - pose proof (split_nonempty sep s) as Hs.
    destruct (split sep s) as [|p ps] eqn:E; [done|].
    simpl in *. destruct ps; simpl in *; by rewrite <- IH.
Qed.

Lemma re_sub_empty_app cls a b :
  re_sub_empty cls (a +:+ b) = re_sub_empty cls a +:+ re_sub_empty cls b.
Proof.
  induction a as [|c a IH]; simpl; [done|].
  destruct (cls c); simpl; by rewrite IH.
Qed.

Lemma lower_app a b : lower (a +:+ b) = lower a +:+ lower b.
Proof. induction a as [|c a IH]; simpl; [done|]. by rewrite IH. Qed.

Lemma re_sub_empty_spaces k : re_sub_empty punctuation (spaces k) = spaces k.
Proof. induction k as [|k IH]; simpl; [done|]. by rewrite IH. Qed.

Lemma lower_spaces k : lower (spaces k) = spaces k.
Proof. induction k as [|k IH]; simpl; [done|]. by rewrite IH. Qed.

Lemma chars_re_sub_empty cls s :
  chars (re_sub_empty cls s) = filter (λ c, cls c = false) (chars s).
Proof.
  induction s as [|c s IH]; simpl; [done|].
  unfold chars in *. simpl. rewrite filter_cons.
  destruct (cls c) eqn:E; simpl; rewrite IH; try case_decide; done.
Qed.

Lemma chars_lower s : chars (lower s) = lower_char <$> chars s.
Proof. induction s as [|c s IH]; simpl; [done|]. unfold chars in *. simpl. by rewrite IH. Qed.

Lemma punctuation_spec c :
  punctuation c = true ↔ c = ","%char ∨ c = "?"%char ∨ c = "."%char.
Proof.
  unfold punctuation.
  destruct (Ascii.eqb_spec c ","), (Ascii.eqb_spec c "?"),
    (Ascii.eqb_spec c "."); simpl; split; intros; try done; tauto.
Qed.

Lemma tokenized_run u v k :
  tokenized (u +:+ spaces (S k) +:+ v)
  = tokenized u ++ replicate k EmptyString ++ tokenized v.
Proof.
  unfold tokenized.
  rewrite !re_sub_empty_app, !lower_app, re_sub_empty_spaces, lower_spaces.
  change (spaces (S k) +:+ ?w) with (String " " (spaces k +:+ w)).
  by rewrite split_app_sep, split_spaces_app.
Qed.

Lemma empty_tokens_app l1 l2 :
  empty_tokens (l1 ++ l2) = empty_tokens l1 + empty_tokens l2.
Proof. unfold empty_tokens. by rewrite filter_app, length_app. Qed.

Lemma empty_tokens_replicate k : empty_tokens (replicate k EmptyString) = k.
Proof.
  unfold empty_tokens. induction k as [|k IH]; [done|].
  cbn [replicate]. rewrite filter_cons_True by done.
  cbn [length]. by rewrite IH.
Qed.

(** Closes [c ∉ chars s] for a literal [s] that does not hold [c]. *)
Ltac no_such_char :=
  let H := fresh "Hin" in
  intros H; unfold chars in H; simpl in H;
  repeat (apply elem_of_cons in H as [[=]|H]);
  by apply elem_of_nil in H.

Lemma split_no_sep sep s : sep ∉ chars s → split sep s = [s].
Proof.
  induction s as [|c s IH]; simpl; [done|].
  unfold chars in *. simpl. intros Hnot.
  apply not_elem_of_cons in Hnot as [Hne Hnot].
  destruct (Ascii.eqb_spec c sep) as [->|_]; [done|].
  by rewrite IH.
Qed.

Lemma lower_char_space c : lower_char c = " "%char → c = " "%char.
Proof. by destruct c as [[] [] [] [] [] [] [] []]; vm_compute. Qed.

Lemma tokenized_no_space s :
  " "%char ∉ chars s → tokenized s = [lower (re_sub_empty punctuation s)].
Proof.
  intros Hs. apply split_no_sep.
  rewrite chars_lower, chars_re_sub_empty. intros Hin.
  apply list_elem_of_fmap in Hin as (c & Hc & Hin).
  symmetry in Hc. apply lower_char_space in Hc as ->.
  by apply list_elem_of_filter in Hin as [_ Hin].
Qed.

Lemma lower_empty s : lower s = EmptyString → s = EmptyString.
Proof. by destruct s. Qed.

End TokenizerFacts.

(** ** The vocabulary *)

Module VocabularyFacts.
Import Vocabulary.

Lemma compare_refl s : String.compare s s = Eq.
Proof.
  pose proof (String.compare_antisym s s) as H.
  by destruct (String.compare s s).
Qed.

Lemma before_strict s1 s2 : before s1 s2 ↔ strict String.le s1 s2.
Proof.
  rewrite strict_spec_alt. unfold before, String.le, String.ltb, String.leb.
  destruct (String.compare s1 s2) eqn:E; simpl.
  - apply String.compare_eq_iff in E. split; [done|]. by intros [_ []].
  - split; [|done]. intros _. split; [done|].
    intros ->. by rewrite compare_refl in E.
  - split; [done|]. by intros [[] _].
Qed.

Lemma sort_Permutation (l1 l2 : list string) :
  l1 ≡ₚ l2 → merge_sort String.le l1 = merge_sort String.le l2.
Proof.
  intros Hp. apply (Sorted_unique String.le).
  - apply Sorted_merge_sort, _.
  - apply Sorted_merge_sort, _.
  - by rewrite !merge_sort_Permutation.
Qed.

Lemma drop_repeats_sorted prev l :
  StronglySorted String.le (prev :: l) →
  StronglySorted (strict String.le) (prev :: drop_repeats prev l).
Proof.
  revert prev. induction l as [|x l IH]; intros prev Hs; simpl.
  - repeat constructor.
  - apply StronglySorted_inv in Hs as [Hs Hall].
    apply Forall_cons in Hall as [Hpx Hall].
    case_decide as Hx.
    + subst x. apply IH. apply StronglySorted_inv in Hs as [Hs _].
      by constructor.
    + specialize (IH x Hs).
      assert (strict String.le prev x) as Hlt.
      { apply strict_spec_alt. split; [done|congruence]. }
      constructor; [done|].
      apply StronglySorted_inv in IH as [_ Hall'].
      constructor; [done|].
      eapply Forall_impl; [exact Hall'|].
      intros y Hy. by etrans.
Qed.

Lemma drop_repeats_elem_of prev l x :
  x ∈ prev :: drop_repeats prev l ↔ x ∈ prev :: l.
Proof.
  revert prev. induction l as [|y l IH]; intros prev; simpl; [done|].
  case_decide as Hy.
  - subst y. rewrite IH, !elem_of_cons. tauto.
  - rewrite !elem_of_cons, <- !(elem_of_cons _ x y), IH. tauto.
Qed.

Lemma uniq_sorted l :
  Sorted String.le l → StronglySorted (strict String.le) (uniq l).
Proof.
  intros Hs%(Sorted_StronglySorted _). destruct l as [|x l]; simpl.
  - constructor.
  - by apply drop_repeats_sorted.
Qed.

Lemma uniq_elem_of l x : x ∈ uniq l ↔ x ∈ l.
Proof. destruct l as [|y l]; simpl; [done|]. apply drop_repeats_elem_of. Qed.

Lemma np_unique_sorted ar : StronglySorted (strict String.le) (np_unique ar).
Proof. apply uniq_sorted, Sorted_merge_sort, _. Qed.

Lemma np_unique_elem_of ar x : x ∈ np_unique ar ↔ x ∈ np_array ar.
Proof. unfold np_unique. by rewrite uniq_elem_of, merge_sort_Permutation. Qed.

Lemma strictly_sorted_lookup (l : list string) i j x y :
  StronglySorted (strict String.le) l →
  l !! i = Some x → l !! j = Some y → i < j → strict String.le x y.
Proof.
  intros Hs. revert i j. induction Hs as [|a l Hs IH Hall]; intros i j Hi Hj Hij.
  - by rewrite lookup_nil in Hi.
  - destruct j as [|j]; [lia|]. simpl in Hj. destruct i as [|i]; simpl in Hi.
    + simplify_eq. eapply Forall_forall in Hall; [done|].
      by eapply list_elem_of_lookup_2.
    + eapply IH; [done..|lia].
Qed.

Lemma np_unique_NoDup ar : NoDup (np_unique ar).
Proof.
  apply NoDup_alt. intros i j x Hi Hj.
  pose proof (np_unique_sorted ar) as Hs.
  destruct (Nat.lt_total i j) as [Hlt|[->|Hlt]]; [|done|].
  - destruct (strictly_sorted_lookup _ _ _ _ _ Hs Hi Hj Hlt) as [_ []]. done.
  - destruct (strictly_sorted_lookup _ _ _ _ _ Hs Hj Hi Hlt) as [_ []]. done.
Qed.

Lemma dict_of_snoc items v k : dict_of (items ++ [(v, k)]) = <[k := v]> (dict_of items).
Proof. unfold dict_of. by rewrite foldl_snoc. Qed.

Lemma dict_of_lookup items k v :
  NoDup (items.*2) → dict_of items !! k = Some v ↔ (v, k) ∈ items.
Proof.
  induction items as [|[v' k'] items IH] using rev_ind; intros Hnd.
  - unfold dict_of. simpl. rewrite lookup_empty, elem_of_nil. naive_solver.
  - rewrite fmap_app in Hnd. apply NoDup_app in Hnd as (Hnd & Hfresh & _).
    rewrite dict_of_snoc, elem_of_app, list_elem_of_singleton.
    destruct (decide (k' = k)) as [->|Hne].
    + rewrite lookup_insert_eq. split.
      * intros [= ->]. by right.
      * intros [Hin|[= -> ]]; [|done].
        exfalso. apply (Hfresh k); [|simpl; left].
        apply list_elem_of_fmap. by exists (v, k).
    + rewrite lookup_insert_ne by done. rewrite IH by done.
      split; [by left|]. intros [?|[= ]]; [done|congruence].
Qed.

Lemma enumerate_keys (l : list string) : (enumerate l).*2 = l.
Proof.
  unfold enumerate. rewrite fmap_imap.
  apply list_eq. intros i. rewrite list_lookup_imap. by destruct (l !! i).
Qed.

Lemma enumerate_elem_of (l : list string) i x :
  (i, x) ∈ enumerate l ↔ l !! i = Some x.
Proof.
  unfold enumerate. rewrite elem_of_lookup_imap. split.
  - by intros (j & y & [= -> ->] & ?).
  - intros ?. by exists i, x.
Qed.

(** The id of a token is its position among the sorted unique tokens. *)
Lemma vocab_lookup tokens t i :
  vocab tokens !! t = Some i ↔ np_unique tokens !! i = Some t.
Proof.
  unfold vocab. rewrite dict_of_lookup, enumerate_elem_of; [done|].
  rewrite enumerate_keys. apply np_unique_NoDup.
Qed.

Lemma np_unique_length tokens :
  length (np_unique tokens) = size (list_to_set (np_array tokens) : gset string).
Proof.
  rewrite <- (size_list_to_set (C := gset string) (np_unique tokens))
    by apply np_unique_NoDup.
  f_equal. apply set_eq. intros x.
  by rewrite !elem_of_list_to_set, np_unique_elem_of.
Qed.

(** *** Reading strings back from the array *)

Lemma rstrip_nul_cons c s :
  rstrip_nul (String c s)
  = match rstrip_nul s with
    | EmptyString =>
        if (c =? NUL)%char then EmptyString else String c EmptyString
    | kept => String c kept
    end.
Proof. done. Qed.

(** A string that is read back as it is has a tail that is, too. *)
Lemma rstrip_nul_tail c s :
  rstrip_nul (String c s) = String c s → rstrip_nul s = s.
Proof.
  rewrite rstrip_nul_cons. destruct (rstrip_nul s) as [|d kept].
  - destruct (c =? NUL)%char; [done|]. by intros [= <-].
  - by intros [= <-].
Qed.

Lemma rstrip_nul_idem s : rstrip_nul (rstrip_nul s) = rstrip_nul s.
Proof.
  induction s as [|c s IH]; [done|].
  rewrite rstrip_nul_cons. destruct (rstrip_nul s) as [|d kept] eqn:E.
  - destruct (Ascii.eqb_spec c NUL) as [->|Hc]; [done|].
    rewrite rstrip_nul_cons. cbn [rstrip_nul].
    by destruct (Ascii.eqb_spec c NUL).
  - rewrite rstrip_nul_cons, IH. done.
Qed.

Lemma rstrip_nul_chars s c :
  c ∈ Tokenizer.chars (rstrip_nul s) → c ∈ Tokenizer.chars s.
Proof.
  unfold Tokenizer.chars. induction s as [|d s IH]; [done|].
  rewrite rstrip_nul_cons. cbn [list_ascii_of_string].
  destruct (rstrip_nul s) as [|e kept].
  - destruct (d =? NUL)%char; [by intros ?%elem_of_nil|].
    cbn [list_ascii_of_string]. intros [->|?%elem_of_nil]%elem_of_cons; [|done].
    by left.
  - cbn [list_ascii_of_string] in *.
    intros [->|Hin]%elem_of_cons; [by left|]. right. by apply IH.
Qed.

Lemma np_array_elem_of (l : list string) key :
  key ∈ np_array l ↔ ∃ t, t ∈ l ∧ key = rstrip_nul t.
Proof.
  unfold np_array. rewrite list_elem_of_fmap. split.
  - intros (t & -> & Ht). by exists t.
  - intros (t & Ht & ->). by exists t.
Qed.

Lemma np_array_fixed (l : list string) key :
  key ∈ np_array l → rstrip_nul key = key.
Proof. intros (t & _ & ->)%np_array_elem_of. apply rstrip_nul_idem. Qed.

Lemma np_array_id (l : list string) :
  Forall (λ t, rstrip_nul t = t) l → np_array l = l.
Proof.
  unfold np_array. induction 1 as [|t l Ht _ IH]; [done|].
  cbn [fmap list_fmap]. by rewrite Ht, IH.
Qed.

(** Nothing sorts before U+0000. *)
Lemma compare_NUL d : Ascii.compare NUL d = Eq ∨ Ascii.compare NUL d = Lt.
Proof.
  unfold Ascii.compare. change (N_of_ascii NUL) with 0%N.
  destruct (N_of_ascii d); simpl; auto.
Qed.

(** Reading back does not change what a string sorts before, among the
    strings that are read back as they are. *)
Lemma before_rstrip_nul x t :
  rstrip_nul t = t → before (rstrip_nul x) t → before x t.
Proof.
  unfold before, String.ltb.
  assert (∀ x t, rstrip_nul t = t →
    String.compare (rstrip_nul x) t = Lt → String.compare x t = Lt) as Hall.
  { clear. induction x as [|c x IH]; intros t Ht; [done|].
    rewrite rstrip_nul_cons.
    destruct t as [|d t]; [by destruct (rstrip_nul x), (c =? NUL)%char|].
    pose proof (rstrip_nul_tail _ _ Ht) as Ht'.
    destruct (rstrip_nul x) as [|e kept] eqn:E.
    - destruct (Ascii.eqb_spec c NUL) as [->|Hc].
      + intros _. cbn [String.compare].
        destruct (compare_NUL d) as [Hd|Hd]; rewrite Hd; [|done].
        apply Ascii.compare_eq_iff in Hd as <-.
        apply IH; [done|]. destruct t; [|done].
        by rewrite rstrip_nul_cons in Ht.
      + cbn [String.compare]. destruct (Ascii.compare c d); [|done..].
        intros Hlt. by apply IH.
    - cbn [String.compare]. destruct (Ascii.compare c d); [|done..].
      intros Hlt. by apply IH. }
  intros Ht Hlt. destruct (String.compare (rstrip_nul x) t) eqn:E; try done.
  by rewrite (Hall _ _ Ht E).
Qed.

End VocabularyFacts.

(** ** The framework operations *)

Module TFFacts.
Import TF.

Lemma int64_spec z :
  int64 z = true ↔ (-9223372036854775808 ≤ z < 9223372036854775808)%Z.
Proof.
  unfold int64. rewrite andb_true_iff, Z.leb_le, Z.ltb_lt. done.
Qed.

Lemma int64_false z :
  int64 z = false ↔ (z < -9223372036854775808 ∨ 9223372036854775808 ≤ z)%Z.
Proof.
  pose proof (int64_spec z). destruct (int64 z); split; try done; lia.
Qed.












Lemma gather_rows params ids rs :
  gather params ids = Return rs → length rs = length ids.
Proof.
  revert rs. induction ids as [|id ids IH]; intros rs; simpl.
  - by intros [= <-].
  - destruct (gather_row params id); simpl; [|done].
    destruct (gather params ids) as [rs'|]; simpl; [|done].
    intros [= <-]. simpl. by rewrite (IH rs').
Qed.


End TFFacts.

(** * The specification's claims *)

Import Tokenizer TokenizerFacts Vocabulary VocabularyFacts.

(** C1. Vocabulary construction does not depend on the order of the tokens:
    two token sequences with the same multiset of tokens get the same
    token-to-id mapping. *)
Theorem C1_vocab_order_independent (tokens1 tokens2 : list string) :
  tokens1 ≡ₚ tokens2 → vocab tokens1 = vocab tokens2.
Proof.
  intros Hp. unfold vocab, np_unique.
  by rewrite (sort_Permutation (np_array tokens1) (np_array tokens2))
    by (unfold np_array; by rewrite Hp).
Qed.

Lemma C1_witness :
  ["usque"; "quo"; "usque"] ≡ₚ ["quo"; "usque"; "usque"]
  ∧ vocab ["usque"; "quo"; "usque"] = vocab ["quo"; "usque"; "usque"].
Proof.
  split.
  - apply perm_swap.
  - apply C1_vocab_order_independent, perm_swap.
Defined.

(** C2, as the claim has it, fails: a token that ends with U+0000 and the
    same token without it are two distinct tokens and get one id. *)
Lemma C2_counterexample :
  ¬ ∀ tokens : list string,
      dom (vocab tokens) = list_to_set tokens
      ∧ (∀ t1 t2 i,
           vocab tokens !! t1 = Some i → vocab tokens !! t2 = Some i → t1 = t2)
      ∧ (∀ i, i < size (list_to_set tokens : gset string)
              ↔ ∃ t, vocab tokens !! t = Some i)
      ∧ (∀ t1 t2 i j,
           vocab tokens !! t1 = Some i → vocab tokens !! t2 = Some j →
           (i < j ↔ before t1 t2)).
Proof.
  intros H.
  destruct (H ["a"; String "a" (String NUL EmptyString)]) as (_ & _ & Hids & _).
  destruct (proj1 (Hids 1)) as [t Ht]; [vm_compute; lia|].
  apply vocab_lookup in Ht. vm_compute in Ht. discriminate Ht.
Qed.

(** C2, amended. The keys of a vocabulary are the distinct tokens as NumPy
    reads them back, without the U+0000 characters they end with. The ids
    are unique, they are exactly 0..N-1 for N the number of keys, and they
    follow the lexicographic order of the keys. When no token ends with
    U+0000, the keys are the distinct tokens and N is their number. *)
Theorem C2_ids_unique_contiguous_sorted (tokens : list string) :
  dom (vocab tokens) = list_to_set (np_array tokens)
  ∧ (∀ t1 t2 i, vocab tokens !! t1 = Some i → vocab tokens !! t2 = Some i → t1 = t2)
  ∧ (∀ i, i < size (list_to_set (np_array tokens) : gset string)
          ↔ ∃ t, vocab tokens !! t = Some i)
  ∧ (∀ t1 t2 i j, vocab tokens !! t1 = Some i → vocab tokens !! t2 = Some j →
       (i < j ↔ before t1 t2))
  ∧ (Forall (λ t, rstrip_nul t = t) tokens →
       dom (vocab tokens) = list_to_set tokens
       ∧ (∀ i, i < size (list_to_set tokens : gset string)
               ↔ ∃ t, vocab tokens !! t = Some i)).
Proof.
  assert (dom (vocab tokens) = list_to_set (np_array tokens)) as Hdom.
  { apply set_eq. intros t.
    rewrite elem_of_dom, elem_of_list_to_set, <- np_unique_elem_of.
    rewrite list_elem_of_lookup. unfold is_Some.
    by setoid_rewrite vocab_lookup. }
  assert (∀ i, i < size (list_to_set (np_array tokens) : gset string)
               ↔ ∃ t, vocab tokens !! t = Some i) as Hids.
  { intros i. rewrite <- np_unique_length. setoid_rewrite vocab_lookup.
    by rewrite <- lookup_lt_is_Some. }
  split; [done|]. split; [|split; [done|split]].
  - intros t1 t2 i H1%vocab_lookup H2%vocab_lookup. congruence.
  - intros t1 t2 i j H1%vocab_lookup H2%vocab_lookup.
    pose proof (np_unique_sorted tokens) as Hs.
    rewrite before_strict. split.
    + by eapply strictly_sorted_lookup.
    + intros Hlt. destruct (Nat.lt_total i j) as [?|[->|Hji]]; [done|..].
      * simplify_eq. by destruct Hlt as [_ []].
      * pose proof (strictly_sorted_lookup _ _ _ _ _ Hs H2 H1 Hji) as Hgt.
        destruct Hlt as [Hle Hnle]. by destruct Hgt as [? _].
  - intros Hfixed%np_array_id. by rewrite Hfixed in Hdom, Hids.
Qed.

Lemma C2_witness :
  dom (vocab ["usque"; "quo"; "usque"]) = list_to_set ["usque"; "quo"; "usque"]
  ∧ (∀ i, i < size (list_to_set ["usque"; "quo"; "usque"] : gset string)
          ↔ ∃ t, vocab ["usque"; "quo"; "usque"] !! t = Some i).
Proof.
  apply (C2_ids_unique_contiguous_sorted ["usque"; "quo"; "usque"]).
  repeat constructor.
Defined.

(** C4. The worked example: the tokens of
    "Quo usque tandem abutere, Catilina?" and the vocabulary built from
    them. *)
Theorem C4_worked_example :
  tokenized "Quo usque tandem abutere, Catilina?"
  = ["quo"; "usque"; "tandem"; "abutere"; "catilina"]
  ∧ vocab (tokenized "Quo usque tandem abutere, Catilina?")
    = {[ "abutere" := 0; "catilina" := 1; "quo" := 2; "tandem" := 3;
         "usque" := 4 ]}.
Proof. split; vm_compute; reflexivity. Qed.

(** C6, as the claim has it, fails: the empty string does not give the
    empty token sequence. *)
Lemma C6_counterexample : tokenized "" ≠ [].
Proof. discriminate. Qed.

(** C6, amended. The tokenizer applied to the empty string gives one token,
    the empty one. *)
Theorem C6_empty_string_one_empty_token : tokenized "" = [""].
Proof. reflexivity. Qed.

(** C10. The punctuation set is exactly [,], [?] and [.]; every other
    character is kept, lowercased: the tokens joined by single spaces are
    the lowercased text without those three characters. The text is split
    at every single space, so a run of k+1 spaces, wherever it stands,
    produces k empty tokens, between the tokens of the text before it and
    those of the text after it; they are all the empty tokens there are
    when both texts are free of spaces and keep a character once the
    punctuation is removed. *)
Theorem C10_punctuation_and_runs_of_spaces :
  (∀ c, punctuation c = true ↔ c = ","%char ∨ c = "?"%char ∨ c = "."%char)
  ∧ (∀ text, chars (join " " (tokenized text))
             = lower_char <$> filter (λ c, punctuation c = false) (chars text))
  ∧ (∀ u v k, tokenized (u +:+ spaces (S k) +:+ v)
              = tokenized u ++ replicate k "" ++ tokenized v)
  ∧ (∀ u v k, " "%char ∉ chars u → " "%char ∉ chars v →
       re_sub_empty punctuation u ≠ "" → re_sub_empty punctuation v ≠ "" →
       empty_tokens (tokenized (u +:+ spaces (S k) +:+ v)) = k).
Proof.
  split; [exact punctuation_spec|]. split; [|split].
  - intros text. unfold tokenized.
    by rewrite join_split, chars_lower, chars_re_sub_empty.
  - exact tokenized_run.
  - intros u v k Hu Hv Hu' Hv'.
    rewrite tokenized_run, !empty_tokens_app, empty_tokens_replicate.
    rewrite !tokenized_no_space by done. unfold empty_tokens.
    rewrite !filter_cons_False, filter_nil; [simpl; lia|..];
      by intros ?%lower_empty.
Qed.

Lemma C10_witness :
  empty_tokens (tokenized ("Quo" +:+ spaces 3 +:+ "usque,")) = 2.
Proof.
  apply C10_punctuation_and_runs_of_spaces;
    [no_such_char | no_such_char | discriminate | discriminate].
Defined.

Import TF TFFacts.



(** C5. The claim does not hold of the class: on the CPU the lookup of the
    id 5 in a table of two rows fails, but [__call__] with the sequence [5]
    returns the rows of the module-level ids 0 and 1. *)
Theorem C5_call_returns_for_id_out_of_range :
  ∃ instance,
    Embedding.__init__ (example_session CPU) 2 1 = Return instance
    ∧ row (Embedding.embeddings instance) 5 = Raise InvalidArgumentError
    ∧ embedding_lookup (Embedding.embeddings instance) [5]%Z
      = Raise InvalidArgumentError
    ∧ Embedding.__call__ [0; 1]%Z instance [5]%Z
      = Return {| on := CPU; n_cols := 1;
                  rows := [[0 # 8388608]; [1000003 # 8388608]]%Q |}.
Proof. eexists. split; [reflexivity|]. by vm_compute. Qed.






Import Notebook.

(** C9. The class's [__call__] does not use its argument: it looks the
    module-level ids up, so any two arguments give the same result. And
    cell 20 calls the Keras layer bound to [embeddings], not the instance it
    has just constructed: whatever the parameters the instance was
    constructed with, the cell prints the layer's rows for the module-level
    ids. *)
Theorem C9_demo_ignores_argument_and_instance :
  (∀ ids self arg1 arg2,
     Embedding.__call__ ids self arg1 = embedding_lookup (Embedding.embeddings self) ids
     ∧ Embedding.__call__ ids self arg1 = Embedding.__call__ ids self arg2)
  ∧ (∀ g draw1 V1 D1 instance1 draw2 V2 D2 instance2,
       Embedding.__init__ draw1 V1 D1 = Return instance1 →
       Embedding.__init__ draw2 V2 D2 = Return instance2 →
       printed (cell_20 draw1 V1 D1 g) = call (embeddings g) (words_ids g)
       ∧ printed (cell_20 draw1 V1 D1 g) = printed (cell_20 draw2 V2 D2 g)).
Proof.
  split; [done|].
  assert (∀ g draw V D instance,
    Embedding.__init__ draw V D = Return instance →
    printed (cell_20 draw V D g) = call (embeddings g) (words_ids g)) as Hcell.
  { intros g draw V D instance Hinit. unfold printed, cell_20.
    rewrite Hinit. simpl. by destruct (call (embeddings g) (words_ids g)). }
  intros g draw1 V1 D1 instance1 draw2 V2 D2 instance2 H1 H2.
  split; [by eapply Hcell|]. by rewrite (Hcell _ _ _ _ _ H1), (Hcell _ _ _ _ _ H2).
Qed.

Lemma C9_witness :
  printed (cell_20 (example_session CPU) 2 1 example_globals)
  = call (embeddings example_globals) (words_ids example_globals)
  ∧ printed (cell_20 (example_session CPU) 2 1 example_globals)
    = printed (cell_20 (example_session GPU) 0 3 example_globals).
Proof.
  eapply (proj2 C9_demo_ignores_argument_and_instance); reflexivity.
Defined.

(** ** The notebook's own run *)

(** Cells 4 to 10 on the notebook's text: the vocabulary that cell 6 prints,
    and the two ids of cell 10. *)
Example notebook_vocab :
  let text := "Quo usque tandem abutere, Catilina, patientia nostra? Quamdiu etiam furor iste tuus nos eludet? Quem ad finem sese effrenata iactabit audacia?" in
  vocab (tokenized text)
  = list_to_map
      [("abutere", 0); ("ad", 1); ("audacia", 2); ("catilina", 3);
       ("effrenata", 4); ("eludet", 5); ("etiam", 6); ("finem", 7);
       ("furor", 8); ("iactabit", 9); ("iste", 10); ("nos", 11);
       ("nostra", 12); ("patientia", 13); ("quamdiu", 14); ("quem", 15);
       ("quo", 16); ("sese", 17); ("tandem", 18); ("tuus", 19);
       ("usque", 20)]
  ∧ VOCAB_LEN (tokenized text) = 21
  ∧ vocab (tokenized text) !! "abutere" = Some 0
  ∧ vocab (tokenized text) !! "patientia" = Some 13.
Proof. vm_compute. repeat split; reflexivity. Qed.

(** * Further properties of the code *)

(** ** Cell 4: what the tokens look like *)

Module TokenizerMore.
Import Tokenizer TokenizerFacts Cells.

(** Decides a fact about every character by running through the 256 of
    them. *)
Ltac by_cases_on_char c :=
  destruct c as [[] [] [] [] [] [] [] []]; vm_compute; try done; tauto.

Lemma punctuation_lower_char c : punctuation (lower_char c) = punctuation c.
Proof. by_cases_on_char c. Qed.

Lemma lower_char_idem c : lower_char (lower_char c) = lower_char c.
Proof. by_cases_on_char c. Qed.

Lemma lower_char_of_space c : lower_char c = " "%char ↔ c = " "%char.
Proof. split; [apply lower_char_space|by intros ->]. Qed.

Lemma count_cons c x s :
  count c (String x s) = if decide (x = c) then S (count c s) else count c s.
Proof.
  unfold count, chars. cbn [list_ascii_of_string]. rewrite filter_cons.
  by case_decide.
Qed.

Lemma length_split sep s : length (split sep s) = S (count sep s).
Proof.
  induction s as [|x s IH]; [done|].
  rewrite count_cons. cbn [split].
  destruct (Ascii.eqb_spec x sep) as [->|Hne].
  - rewrite decide_True by done. cbn [length]. by rewrite IH.
  - rewrite decide_False by done. rewrite <- IH.
    pose proof (split_nonempty sep s). by destruct (split sep s).
Qed.

Lemma count_space_normalised s :
  count " " (lower (re_sub_empty punctuation s)) = count " " s.
Proof.
  induction s as [|x s IH]; [done|].
  rewrite count_cons. cbn [re_sub_empty].
  destruct (punctuation x) eqn:Hp.
  - rewrite IH. case_decide as Hx; [|done]. by subst x.
  - cbn [lower]. rewrite count_cons, IH.
    destruct (decide (x = " "%char)) as [->|Hx]; [done|].
    rewrite decide_False; [done|]. by intros ?%lower_char_space.
Qed.

Lemma split_chars sep s t c :
  t ∈ split sep s → c ∈ chars t → c ∈ chars s ∧ c ≠ sep.
Proof.
  revert t. induction s as [|x s IH]; intros t Ht Hc.
  - apply list_elem_of_singleton in Ht as ->. by apply elem_of_nil in Hc.
  - cbn [split] in Ht. unfold chars in *. cbn [list_ascii_of_string].
    destruct (Ascii.eqb_spec x sep) as [->|Hne].
    + apply elem_of_cons in Ht as [->|Ht]; [by apply elem_of_nil in Hc|].
      destruct (IH t Ht Hc). split; [by right|done].
    + pose proof (split_nonempty sep s).
      destruct (split sep s) as [|p ps] eqn:E; [done|].
      apply elem_of_cons in Ht as [->|Ht].
      * cbn [list_ascii_of_string] in Hc.
        apply elem_of_cons in Hc as [->|Hc]; [split; [by left|done]|].
        destruct (IH p) as [? ?]; [by left|done|]. split; [by right|done].
      * destruct (IH t) as [? ?]; [by right|done|]. split; [by right|done].
Qed.

Lemma chars_normalised s c :
  c ∈ chars (lower (re_sub_empty punctuation s)) →
  punctuation c = false ∧ lower_char c = c.
Proof.
  rewrite chars_lower, chars_re_sub_empty. intros Hc.
  apply list_elem_of_fmap in Hc as (c0 & -> & Hc0).
  apply list_elem_of_filter in Hc0 as [Hp _].
  by rewrite punctuation_lower_char, lower_char_idem.
Qed.

Lemma lower_fixed s : (∀ c, c ∈ chars s → lower_char c = c) → lower s = s.
Proof.
  unfold chars. induction s as [|x s IH]; intros Hs; [done|].
  cbn [lower]. rewrite (Hs x), IH; [done| |by left].
  intros c Hc. apply Hs. by right.
Qed.

Lemma re_sub_empty_fixed s :
  (∀ c, c ∈ chars s → punctuation c = false) →
  re_sub_empty punctuation s = s.
Proof.
  unfold chars. induction s as [|x s IH]; intros Hs; [done|].
  cbn [re_sub_empty]. rewrite (Hs x), IH; [done| |by left].
  intros c Hc. apply Hs. by right.
Qed.

Lemma lower_re_sub_empty s :
  lower (re_sub_empty punctuation s) = re_sub_empty punctuation (lower s).
Proof.
  induction s as [|x s IH]; [done|].
  cbn [lower re_sub_empty]. rewrite punctuation_lower_char.
  destruct (punctuation x); [done|]. cbn [lower]. by rewrite IH.
Qed.

Lemma normalised_fixed s :
  let n := lower (re_sub_empty punctuation s) in
  lower (re_sub_empty punctuation n) = n.
Proof.
  intros n. rewrite re_sub_empty_fixed.
  - apply lower_fixed. intros c Hc. by apply chars_normalised in Hc as [_ ?].
  - intros c Hc. by apply chars_normalised in Hc as [? _].
Qed.

End TokenizerMore.

Import Cells TokenizerMore.

(** X1. A text has one token more than it has spaces, whatever else it
    holds: there is always at least one token. *)
Theorem X1_token_count (text : string) :
  length (tokenized text) = S (count " " text).
Proof.
  unfold tokenized. by rewrite length_split, count_space_normalised.
Qed.

(** X2. No token holds a space or one of the three punctuation characters,
    and lowercasing a token leaves it as it is. *)
Theorem X2_tokens_normalised (text t : string) :
  t ∈ tokenized text →
  (" "%char ∉ chars t)
  ∧ (∀ c, c ∈ chars t → punctuation c = false)
  ∧ lower t = t.
Proof.
  intros Ht.
  assert (∀ c, c ∈ chars t →
    c ≠ " "%char ∧ punctuation c = false ∧ lower_char c = c) as Hall.
  { intros c Hc. destruct (split_chars _ _ _ _ Ht Hc) as [Hin Hne].
    by apply chars_normalised in Hin as [? ?]. }
  split; [|split].
  - intros Hc. by destruct (Hall _ Hc) as [? _].
  - intros c Hc. by destruct (Hall _ Hc) as (_ & ? & _).
  - apply lower_fixed. intros c Hc. by destruct (Hall _ Hc) as (_ & _ & ?).
Qed.

Lemma X2_witness :
  (" "%char ∉ chars "catilina")
  ∧ (∀ c, c ∈ chars "catilina" → punctuation c = false)
  ∧ lower "catilina" = "catilina".
Proof.
  apply (X2_tokens_normalised "abutere, Catilina?" "catilina").
  vm_compute. right. left.
Defined.

(** X3. Tokenizing is a projection: the tokens joined by single spaces
    tokenize to the same tokens again. *)
Theorem X3_tokenized_join (text : string) :
  tokenized (join " " (tokenized text)) = tokenized text.
Proof.
  unfold tokenized at 2. rewrite join_split.
  unfold tokenized. by rewrite normalised_fixed.
Qed.

(** X4. On texts whose code points are all below U+0100, where lowercasing
    works character by character, tokenizing does not see the case of
    letters: two such texts that are equal once lowercased have the same
    tokens. *)
Theorem X4_case_insensitive (text1 text2 : string) :
  lower text1 = lower text2 → tokenized text1 = tokenized text2.
Proof.
  intros Heq. unfold tokenized. by rewrite !lower_re_sub_empty, Heq.
Qed.

Lemma X4_witness :
  lower "QUO usque" = lower "quo Usque"
  ∧ tokenized "QUO usque" = tokenized "quo Usque".
Proof.
  split; [reflexivity|]. by apply X4_case_insensitive.
Defined.

(** X5. Case and the three punctuation characters are all that tokenizing
    forgets: two texts have the same tokens exactly when they are the same
    text once the punctuation is removed and the letters are lowercased. *)
Theorem X5_tokens_determine_text (text1 text2 : string) :
  tokenized text1 = tokenized text2
  ↔ lower (re_sub_empty punctuation text1) = lower (re_sub_empty punctuation text2).
Proof.
  unfold tokenized. split; [|by intros ->].
  intros Heq. apply (f_equal (join " ")) in Heq. by rewrite !join_split in Heq.
Qed.


(** ** Cells 4 to 10: what the ids are *)

Module VocabularyMore.
Import Vocabulary VocabularyFacts Cells.

#[local] Instance strict_le_antisymm : AntiSymm (=) (strict String.le).
Proof. intros s1 s2 [_ Hn] [Hle _]. by destruct Hn. Qed.

Lemma np_unique_same_set (l1 l2 : list string) :
  (∀ x, x ∈ np_array l1 ↔ x ∈ np_array l2) → np_unique l1 = np_unique l2.
Proof.
  intros Hset. apply (StronglySorted_unique (strict String.le)).
  - apply np_unique_sorted.
  - apply np_unique_sorted.
  - apply NoDup_Permutation; [apply np_unique_NoDup..|].
    intros x. by rewrite !np_unique_elem_of.
Qed.

(** In a strictly sorted list the elements before the one at position [i]
    are the [i] elements in front of it. *)
Lemma sorted_before_length (l : list string) i t :
  StronglySorted (strict String.le) l → l !! i = Some t →
  length (filter (λ x, before x t) l) = i.
Proof.
  intros Hs. revert i. induction Hs as [|a l Hs IH Hall]; intros i Hi.
  - by rewrite lookup_nil in Hi.
  - destruct i as [|i]; simpl in Hi.
    + simplify_eq. rewrite filter_cons_False.
      2:{ rewrite before_strict. by intros [_ []]. }
      clear IH Hs.
      assert (filter (λ x, before x t) l = []) as ->; [|done].
      induction Hall as [|x l' [_ Hnle] Hall' IH']; [done|].
      rewrite filter_cons_False; [done|].
      rewrite before_strict. by intros [? _].
    + rewrite filter_cons_True.
      * cbn [length]. f_equal. by apply IH.
      * rewrite before_strict. eapply Forall_forall in Hall; [done|].
        by eapply list_elem_of_lookup_2.
Qed.

Lemma vocab_key tokens t i : vocab tokens !! t = Some i → t ∈ np_array tokens.
Proof.
  intros Hi%vocab_lookup. apply np_unique_elem_of.
  by eapply list_elem_of_lookup_2.
Qed.

Lemma VOCAB_LEN_length tokens : VOCAB_LEN tokens = length (np_unique tokens).
Proof.
  unfold VOCAB_LEN. rewrite <- size_dom, np_unique_length. f_equal.
  apply set_eq. intros t.
  rewrite elem_of_dom, elem_of_list_to_set, <- np_unique_elem_of.
  rewrite list_elem_of_lookup. unfold is_Some.
  by setoid_rewrite vocab_lookup.
Qed.

Lemma vocab_rank (tokens : list string) t i :
  vocab tokens !! t = Some i →
  size (filter (λ x, before x t) (list_to_set (np_array tokens) : gset string))
  = i.
Proof.
  intros Hi%vocab_lookup.
  rewrite <- (sorted_before_length (np_unique tokens) i t);
    [|apply np_unique_sorted|done].
  rewrite <- (size_list_to_set (C := gset string)).
  - f_equal. apply set_eq. intros x.
    rewrite elem_of_filter, !elem_of_list_to_set, list_elem_of_filter.
    by rewrite np_unique_elem_of.
  - apply NoDup_filter, np_unique_NoDup.
Qed.

Lemma nothing_before_empty s : ¬ before s EmptyString.
Proof. unfold before. by destruct s. Qed.

End VocabularyMore.

Import VocabularyMore.

(** X6. The vocabulary depends on which tokens occur, not on how often or
    where: two token sequences with the same set of tokens get the same
    mapping. *)
Theorem X6_vocab_of_the_set (tokens1 tokens2 : list string) :
  (∀ t, t ∈ tokens1 ↔ t ∈ tokens2) → vocab tokens1 = vocab tokens2.
Proof.
  intros Hset. unfold vocab. rewrite (np_unique_same_set tokens1 tokens2); [done|].
  intros x. rewrite !np_array_elem_of. by setoid_rewrite Hset.
Qed.

Lemma X6_witness :
  (∀ t, t ∈ ["usque"; "quo"; "usque"] ↔ t ∈ ["quo"; "usque"])
  ∧ vocab ["usque"; "quo"; "usque"] = vocab ["quo"; "usque"].
Proof.
  assert (∀ t, t ∈ ["usque"; "quo"; "usque"] ↔ t ∈ ["quo"; "usque"]) as Hset.
  { intros t. rewrite !elem_of_cons, !elem_of_nil. tauto. }
  split; [exact Hset|]. by apply X6_vocab_of_the_set.
Defined.

(** X7. The id of a key is its rank: the number of distinct keys that sort
    strictly before it, the keys being the tokens without the U+0000
    characters they end with. *)
Theorem X7_id_is_rank (tokens : list string) (t : string) (i : nat) :
  vocab tokens !! t = Some i →
  size (filter (λ x, before x t) (list_to_set (np_array tokens) : gset string))
  = i.
Proof. apply vocab_rank. Qed.

Lemma X7_witness :
  size (filter (λ x, before x "b")
          (list_to_set
             (np_array ["b"; "a"; String "a" (String NUL EmptyString)])
           : gset string)) = 1.
Proof.
  apply (X7_id_is_rank ["b"; "a"; String "a" (String NUL EmptyString)] "b" 1).
  vm_compute. reflexivity.
Defined.

(** X8. An empty token, as a doubled, leading or trailing space leaves one,
    always takes the id 0. *)
Theorem X8_empty_token_id (tokens : list string) :
  EmptyString ∈ tokens → vocab tokens !! EmptyString = Some 0.
Proof.
  intros Hin.
  assert (EmptyString ∈ np_unique tokens) as [i Hi]%list_elem_of_lookup.
  { apply np_unique_elem_of, np_array_elem_of. by exists EmptyString. }
  apply vocab_lookup. destruct i as [|i]; [done|].
  destruct (lookup_lt_is_Some_2 (np_unique tokens) 0) as [a Ha].
  { apply lookup_lt_Some in Hi. lia. }
  pose proof (strictly_sorted_lookup _ _ _ _ _
    (np_unique_sorted tokens) Ha Hi ltac:(lia)) as Hlt.
  apply before_strict in Hlt. by apply nothing_before_empty in Hlt.
Qed.

Lemma X8_witness :
  vocab (tokenized "quo  usque") !! EmptyString = Some 0.
Proof.
  apply X8_empty_token_id. vm_compute. right. left.
Defined.

(** X9. The array that [np.unique] returns is the inverse of the
    vocabulary: a token has the id i exactly when it stands at position i
    of the sorted unique tokens. *)
Theorem X9_sorted_array_inverts_vocab (tokens : list string) :
  (∀ t i, vocab tokens !! t = Some i → np_unique tokens !! i = Some t)
  ∧ (∀ t i, np_unique tokens !! i = Some t → vocab tokens !! t = Some i)
  ∧ length (np_unique tokens) = VOCAB_LEN tokens.
Proof.
  split; [|split].
  - intros t i. apply vocab_lookup.
  - intros t i. apply vocab_lookup.
  - by rewrite VOCAB_LEN_length.
Qed.

(** X10. [VOCAB_LEN] is the number of distinct keys, that is of distinct
    tokens once the U+0000 characters they end with are dropped; for the
    tokens of a text it is at least 1 and at most one more than the number
    of spaces of the text. *)
Theorem X10_VOCAB_LEN_bounds :
  (∀ tokens,
     VOCAB_LEN tokens = size (list_to_set (np_array tokens) : gset string))
  ∧ (∀ text, 1 ≤ VOCAB_LEN (tokenized text) ≤ S (count " " text)).
Proof.
  split.
  - intros tokens. by rewrite VOCAB_LEN_length, np_unique_length.
  - intros text. rewrite VOCAB_LEN_length. split.
    + pose proof (split_nonempty " " (lower (re_sub_empty punctuation text))) as Hne.
      fold (tokenized text) in Hne.
      destruct (tokenized text) as [|t ts] eqn:E; [done|].
      assert (rstrip_nul t ∈ np_unique (t :: ts)) as Hin.
      { apply np_unique_elem_of, np_array_elem_of. exists t. split; [by left|done]. }
      destruct (np_unique (t :: ts)); [by apply elem_of_nil in Hin|simpl; lia].
    + rewrite <- count_space_normalised, <- length_split.
      fold (tokenized text).
      rewrite <- (length_fmap rstrip_nul (tokenized text)).
      apply submseteq_length, NoDup_submseteq; [apply np_unique_NoDup|].
      intros x. by rewrite np_unique_elem_of.
Qed.

(** X11. [vocab[key]] gives an id below [VOCAB_LEN] for a key that is a
    token without the U+0000 characters it ends with, and raises [KeyError]
    with the key for every other key; a key that ends with U+0000 is among
    these, token or not. *)
Theorem X11_getitem (tokens : list string) (key : string) :
  (key ∈ np_array tokens →
     ∃ id, getitem (vocab tokens) key = Item id ∧ id < VOCAB_LEN tokens)
  ∧ (key ∉ np_array tokens → getitem (vocab tokens) key = KeyError key)
  ∧ (rstrip_nul key ≠ key → getitem (vocab tokens) key = KeyError key).
Proof.
  assert (key ∉ np_array tokens → getitem (vocab tokens) key = KeyError key)
    as Hmiss.
  { intros Hnot. unfold getitem.
    destruct (vocab tokens !! key) as [i|] eqn:E; [|done].
    by apply vocab_key in E. }
  split; [|split; [done|]].
  - unfold getitem.
    intros Hin%np_unique_elem_of. apply list_elem_of_lookup in Hin as [i Hi].
    exists i. rewrite (proj2 (vocab_lookup tokens key i) Hi). split; [done|].
    rewrite VOCAB_LEN_length. by eapply lookup_lt_Some.
  - intros Hnul. apply Hmiss. by intros ?%np_array_fixed.
Qed.

Lemma X11_witness :
  (∃ id, getitem (vocab ["usque"; String "a" (String NUL EmptyString)]) "a"
         = Item id
         ∧ id < VOCAB_LEN ["usque"; String "a" (String NUL EmptyString)])
  ∧ getitem (vocab ["usque"; String "a" (String NUL EmptyString)]) "tandem"
    = KeyError "tandem"
  ∧ getitem (vocab ["usque"; String "a" (String NUL EmptyString)])
      (String "a" (String NUL EmptyString))
    = KeyError (String "a" (String NUL EmptyString)).
Proof.
  destruct (X11_getitem ["usque"; String "a" (String NUL EmptyString)] "a")
    as (Hfound & _ & _).
  destruct (X11_getitem ["usque"; String "a" (String NUL EmptyString)] "tandem")
    as (_ & Hmiss & _).
  destruct (X11_getitem ["usque"; String "a" (String NUL EmptyString)]
              (String "a" (String NUL EmptyString))) as (_ & _ & Hnul).
  split; [|split].
  - apply Hfound. vm_compute. right. left.
  - apply Hmiss. intros (t & Ht & Heq)%np_array_elem_of.
    repeat (apply elem_of_cons in Ht as [->|Ht]);
      [vm_compute in Heq; discriminate..|by apply elem_of_nil in Ht].
  - apply Hnul. vm_compute. discriminate.
Defined.

(** X12. A key that holds a space, one of the three punctuation characters
    or a letter that lowercasing changes is in no vocabulary built from a
    text: looking it up raises [KeyError]. *)
Theorem X12_unnormalised_key (text key : string) :
  (" "%char ∈ chars key) ∨ (∃ c, c ∈ chars key ∧ punctuation c = true)
    ∨ lower key ≠ key →
  getitem (vocab (tokenized text)) key = KeyError key.
Proof.
  intros Hbad. unfold getitem.
  destruct (vocab (tokenized text) !! key) as [i|] eqn:E; [|done].
  exfalso. apply vocab_key, np_array_elem_of in E as (t & Hin & ->).
  assert (∀ c, c ∈ chars (rstrip_nul t) →
    c ≠ " "%char ∧ punctuation c = false ∧ lower_char c = c) as Hall.
  { intros c Hc%rstrip_nul_chars.
    destruct (split_chars _ _ _ _ Hin Hc) as [Hc' Hne].
    by apply chars_normalised in Hc' as [? ?]. }
  destruct Hbad as [Hsp|[(c & Hc & Hp)|Hlow]].
  - by destruct (Hall _ Hsp) as [? _].
  - destruct (Hall _ Hc) as (_ & Hp' & _). congruence.
  - apply Hlow, lower_fixed. intros c Hc. by destruct (Hall _ Hc) as (_ & _ & ?).
Qed.

Lemma X12_witness :
  getitem (vocab (tokenized "Quo usque tandem")) "Quo" = KeyError "Quo".
Proof.
  apply X12_unnormalised_key. right. right. discriminate.
Defined.

(** ** Cells 10 to 19: from ids to rows *)

Import TF TFFacts.





(** ** Cell 4 again: ids when the text grows *)

(** X15. When tokens are added to a token sequence, the id of a token never
    goes down, and it stays what it was when none of the added tokens sorts
    before it. *)
Theorem X15_ids_under_more_tokens (tokens tokens' : list string)
    (t : string) (i i' : nat) :
  (∀ x, x ∈ tokens → x ∈ tokens') →
  vocab tokens !! t = Some i → vocab tokens' !! t = Some i' →
  i ≤ i'
  ∧ ((∀ x, x ∈ tokens' → x ∉ tokens → ¬ before x t) → i' = i).
Proof.
  intros Hsub Hi Hi'.
  pose proof (np_array_fixed _ _ (vocab_key _ _ _ Hi)) as Hfixed.
  apply vocab_rank in Hi as <-. apply vocab_rank in Hi' as <-.
  assert (∀ x, x ∈ np_array tokens → x ∈ np_array tokens') as Hsub'.
  { intros x (y & Hy & ->)%np_array_elem_of.
    apply np_array_elem_of. exists y. split; [by apply Hsub|done]. }
  split.
  - apply subseteq_size. intros x.
    rewrite !elem_of_filter, !elem_of_list_to_set.
    intros [? ?]. split; [done|by apply Hsub'].
  - intros Hnew. f_equal. apply set_eq. intros x.
    rewrite !elem_of_filter, !elem_of_list_to_set.
    split; [|intros [? ?]; split; [done|by apply Hsub']].
    intros [Hb (y & Hy & ->)%np_array_elem_of]. split; [done|].
    destruct (decide (y ∈ tokens)) as [Hin|Hnot].
    + apply np_array_elem_of. by exists y.
    + destruct (Hnew y Hy Hnot). by apply before_rstrip_nul.
Qed.

Lemma X15_witness :
  1 ≤ 1
  ∧ ((∀ x, x ∈ ["quo"; "tandem"; "usque"] → x ∉ ["quo"; "tandem"] →
        ¬ before x "tandem") → 1 = 1).
Proof.
  apply (X15_ids_under_more_tokens ["quo"; "tandem"]
           ["quo"; "tandem"; "usque"] "tandem" 1 1).
  - intros x Hx. rewrite !elem_of_cons in *. tauto.
  - vm_compute. reflexivity.
  - vm_compute. reflexivity.
Defined.
